(** * The answer page hook: cached question and its real-time merges

    Shallow embedding of [client/src/hooks/useAnswerPage.ts].  The hook keeps
    one cached question (or null) in React state, patches it from five socket
    events, and offers [handleNewComment] to issue an add-comment request.

    React state, the router and the comment service are threaded explicitly
    through a [Page] record: a handler is a function [Page -> Page]. *)

From stdpp Require Import base numbers list strings.

Local Open Scope string_scope.
Local Open Scope list_scope.

(** ** Data model *)

(** The module [../types] declaring [Comment], [Answer], [Question] and
    [VoteData] is not among the sources.  The fields the hook reads or writes
    ([_id], [answers], [upVotes], [downVotes], [pinned], [locked], [qid])
    keep the names the hook uses; the remaining ones follow the data model of
    the specification. *)

Module Comment.
(** Modelled from the spec: the declaration of [Comment] is missing; body
    text, author and creation metadata. *)
Record t := mk {
  text : string;
  commentBy : string;
  commentDateTime : string;
}.
End Comment.

Module Answer.
(** Modelled from the spec: the declaration of [Answer] is missing;
    identifier, body text, author, creation metadata, comments, correctness
    flag and the pinned and locked flags. *)
Record t := mk {
  _id : string;
  text : string;
  ansBy : string;
  ansDateTime : string;
  comments : list Comment.t;
  isCorrect : bool;
  pinned : bool;
  locked : bool;
}.
End Answer.

Module Question.
(** Modelled from the spec: the declaration of [Question] is missing;
    identifier, title and body text, author, creation metadata, the ordered
    answers, view count, the two voter lists (arrays of user names, copied
    with the spread [[...voteData.upVotes]]), comments and the pinned and
    locked flags. *)
Record t := mk {
  _id : string;
  title : string;
  text : string;
  askedBy : string;
  askDateTime : string;
  answers : list Answer.t;
  views : Z;
  upVotes : list string;
  downVotes : list string;
  comments : list Comment.t;
  pinned : bool;
  locked : bool;
}.

(** [{ ...q, answers: l }] *)
Definition with_answers (q : t) (l : list Answer.t) : t :=
  mk (_id q) (title q) (text q) (askedBy q) (askDateTime q) l (views q)
     (upVotes q) (downVotes q) (comments q) (pinned q) (locked q).

(** [{ ...q, upVotes: up, downVotes: down }] *)
Definition with_votes (q : t) (up down : list string) : t :=
  mk (_id q) (title q) (text q) (askedBy q) (askDateTime q) (answers q)
     (views q) up down (comments q) (pinned q) (locked q).

(** [{ ...q, pinned: pin, locked: lock }] *)
Definition with_flags (q : t) (pin lock : bool) : t :=
  mk (_id q) (title q) (text q) (askedBy q) (askDateTime q) (answers q)
     (views q) (upVotes q) (downVotes q) (comments q) pin lock.
End Question.

Module VoteData.
(** Modelled from the spec: the declaration of [VoteData] is missing; the
    question identifier and the complete resulting voter lists. *)
Record t := mk {
  qid : string;
  upVotes : list string;
  downVotes : list string;
}.
End VoteData.

(** ['question' | 'answer'] *)
Inductive TargetType := question_target | answer_target.

(** The payload [{ result, type }] of a comment event.  The hook casts
    [result] according to [type]; the tag and the shape of [result] are
    taken to agree, so the pair is a tagged choice. *)
Inductive CommentResult :=
  | QuestionResult (result : Question.t)
  | AnswerResult (result : Answer.t).

(** The value thrown by [new Error(message)] or by a rejected request. *)
Inductive Error := mkError (message : string).

(** One call [addComment(targetId, targetType, comment)] as the comment
    service sees it. *)
Record Request := mkRequest {
  req_targetId : string;
  req_targetType : TargetType;
  req_comment : Comment.t;
}.

(** ** The state the hook works on

    [questionID] and [question] are the two [useState] cells; [navigated]
    records the calls of [navigate], [requests] the calls that reached the
    comment service and [console] the calls of [console.error]. *)
Record Page := mkPage {
  questionID : string;
  question : option Question.t;
  navigated : list string;
  requests : list Request;
  console : list (string * Error);
}.

(** [setQuestion(value)] *)
Definition setQuestion (value : option Question.t) (p : Page) : Page :=
  mkPage (questionID p) value (navigated p) (requests p) (console p).

(** [setQuestion(prevQuestion => ...)] *)
Definition setQuestionWith (f : option Question.t → option Question.t)
    (p : Page) : Page :=
  setQuestion (f (question p)) p.

(** [navigate(path)] *)
Definition navigate (path : string) (p : Page) : Page :=
  mkPage (questionID p) (question p) (navigated p ++ [path]) (requests p)
         (console p).

(** ** Socket handlers *)

(** [ans => ans._id === answer._id ? answer : ans] *)
Definition replace_answer (answer : Answer.t) (ans : Answer.t) : Answer.t :=
  if decide (Answer._id ans = Answer._id answer) then answer else ans.

(** The [answers:] entry of the updater in [handleAnswerUpdate]:
    [removed ? answers.filter(ans => ans._id !== answer._id)
             : answers.map(ans => (ans._id === answer._id ? answer : ans))] *)
Definition mergedAnswers (answer : Answer.t) (removed : bool)
    (answers : list Answer.t) : list Answer.t :=
  if removed
  then filter (λ ans, Answer._id ans ≠ Answer._id answer) answers
  else replace_answer answer <$> answers.

Definition handleAnswerUpdate (id : string) (answer : Answer.t)
    (removed : bool) (p : Page) : Page :=
  if decide (id = questionID p) then
    setQuestionWith (λ prevQuestion,
      match prevQuestion with
      | Some prev =>
          Some (Question.with_answers prev
                  (mergedAnswers answer removed (Question.answers prev)))
      | None => prevQuestion
      end) p
  else p.

Definition handleCommentUpdate (payload : CommentResult) (p : Page) : Page :=
  match payload with
  | QuestionResult questionResult =>
      if decide (Question._id questionResult = questionID p)
      then setQuestion (Some questionResult) p
      else p
  | AnswerResult result =>
      setQuestionWith (λ prevQuestion,
        match prevQuestion with
        | Some prev =>
            Some (Question.with_answers prev
                    (replace_answer result <$> Question.answers prev))
        | None => prevQuestion
        end) p
  end.

Definition handleViewsUpdate (q : Question.t) (p : Page) : Page :=
  if decide (Question._id q = questionID p) then setQuestion (Some q) p else p.

Definition handleVoteUpdate (voteData : VoteData.t) (p : Page) : Page :=
  if decide (VoteData.qid voteData = questionID p) then
    setQuestionWith (λ prevQuestion,
      match prevQuestion with
      | Some prev =>
          Some (Question.with_votes prev (VoteData.upVotes voteData)
                                         (VoteData.downVotes voteData))
      | None => prevQuestion
      end) p
  else p.

Definition handleQuestionRepaint (quest : Question.t) (removed : bool)
    (p : Page) : Page :=
  if decide (Question._id quest = questionID p) then
    if removed then navigate "/home" p
    else
      setQuestionWith (λ prevQuestion,
        match prevQuestion with
        | Some prev =>
            Some (Question.with_flags prev (Question.pinned quest)
                                           (Question.locked quest))
        | None => prevQuestion
        end) p
  else p.

(** The five subscriptions [socket.on(name, handler)]: an event is the name
    it is published under together with its payload. *)
Inductive Event :=
  | answerUpdate (qid : string) (answer : Answer.t) (removed : bool)
  | viewsUpdate (q : Question.t)
  | commentUpdate (payload : CommentResult)
  | voteUpdate (voteData : VoteData.t)
  | questionUpdate (quest : Question.t) (removed : bool).

Definition deliver (ev : Event) : Page → Page :=
  match ev with
  | answerUpdate qid answer removed => handleAnswerUpdate qid answer removed
  | viewsUpdate q => handleViewsUpdate q
  | commentUpdate payload => handleCommentUpdate payload
  | voteUpdate voteData => handleVoteUpdate voteData
  | questionUpdate quest removed => handleQuestionRepaint quest removed
  end.


(** Identifiers of the answers currently in the cache. *)
Definition answerIds (p : Page) : list string :=
  match question p with
  | Some q => Answer._id <$> Question.answers q
  | None => []
  end.

(** ** Asynchronous functions

    An [async] function runs on the page and either resolves with a value or
    rejects with an error; [await] sequences two of them and passes a
    rejection on, [try_catch] is [try { body } catch (error) { handler }]. *)
Definition Async (A : Type) : Type := Page → Page * (Error + A).

Definition resolve {A} (a : A) : Async A := λ p, (p, inr a).

Definition throw {A} (e : Error) : Async A := λ p, (p, inl e).

Definition await {A B} (m : Async A) (k : A → Async B) : Async B :=
  λ p, match m p with
       | (p', inr a) => k a p'
       | (p', inl e) => (p', inl e)
       end.

Definition try_catch {A} (body : Async A) (handler : Error → Async A)
    : Async A :=
  λ p, match body p with
       | (p', inl e) => handler e p'
       | (p', inr a) => (p', inr a)
       end.

#[local] Instance Async_ret : MRet Async := @resolve.
#[local] Instance Async_bind : MBind Async := λ A B k m, await m k.

(** [console.error(label, error)] *)
Definition console_error (label : string) (error : Error) : Async unit :=
  λ p, (mkPage (questionID p) (question p) (navigated p) (requests p)
               (console p ++ [(label, error)]), inr tt).

Section CommentService.

(** What the gateway answers to a request, given the requests it received
    earlier: [None] for an acknowledgement, [Some e] for a rejection. *)
Variable gateway : list Request → Request → option Error.

(** Modelled from the spec: [addComment] of [../services/commentService]
    is not among the sources.  It is the add-comment call of the mutation
    gateway, [add-comment(targetId, targetKind, Comment) -> ack]: the
    request reaches the gateway, which acknowledges or rejects it. *)
Definition addComment (targetId : string) (targetType : TargetType)
    (comment : Comment.t) : Async unit :=
  λ p, let req := mkRequest targetId targetType comment in
       (mkPage (questionID p) (question p) (navigated p)
               (requests p ++ [req]) (console p),
        match gateway (requests p) req with
        | Some e => inl e
        | None => inr ()
        end).

Definition handleNewComment (comment : Comment.t) (targetType : TargetType)
    (targetId : option string) : Async unit :=
  try_catch
    (match targetId with
     | None => throw (mkError "No target ID provided.")
     | Some targetId => _ ← addComment targetId targetType comment; mret ()
     end)
    (λ error, console_error "Error adding comment:" error).

End CommentService.

(** ** Event histories *)

(** The events the socket delivers, handled one after the other, first
    delivered first. *)
Definition replay (evs : list Event) (p : Page) : Page :=
  foldl (λ page ev, deliver ev page) p evs.

(** The cached question, when there is one, is the question the page is
    about. *)
Definition cache_consistent (p : Page) : Prop :=
  ∀ q, question p = Some q → Question._id q = questionID p.

(** The events whose handler patches the cached question through an updater
    [prevQuestion => ...]; a view event and a comment event tagged question
    replace it instead. *)
Definition patches (ev : Event) : bool :=
  match ev with
  | viewsUpdate _ | commentUpdate (QuestionResult _) => false
  | _ => true
  end.

(** ** Route parameter, first render and navigation *)

(** JavaScript truthiness of the route parameter [qid : string | undefined]:
    the string itself when it is defined and not empty. *)
Definition truthy (qid : option string) : option string :=
  match qid with
  | Some s => if decide (s = "") then None else Some s
  | None => None
  end.

(** [setQuestionID(value)] *)
Definition setQuestionID (value : string) (p : Page) : Page :=
  mkPage value (question p) (navigated p) (requests p) (console p).

(** The state cells at the first render: [useState(qid || '')] and
    [useState(null)]. *)
Definition firstRender (qid : option string) : Page :=
  mkPage (default "" (truthy qid)) None [] [] [].

(** The effect on [qid]:
    [if (!qid) { navigate('/home'); return; } setQuestionID(qid);] *)
Definition syncQuestionID (qid : option string) (p : Page) : Page :=
  match truthy qid with
  | None => navigate "/home" p
  | Some s => setQuestionID s p
  end.

(** First render followed by the effect on [qid]. *)
Definition mount (qid : option string) : Page :=
  syncQuestionID qid (firstRender qid).

(** [navigate(`/new/answer/${questionID}`)] *)
Definition handleNewAnswer (p : Page) : Page :=
  navigate ("/new/answer/" +:+ questionID p) p.

(** ** Fetching the question *)

Section QuestionService.

(** Modelled from the spec: [getQuestionById] of
    [../services/questionService] is not among the sources.  It is the fetch
    call [GET-equivalent(identifier, viewerUsername) -> Aggregate |
    not-found]: for an identifier and a user name the call rejects, or
    resolves with a question, or resolves with nothing. *)
Variable getQuestionById : string → string → Error + option Question.t.

(** [user.username] of the user context. *)
Variable username : string.

(** [const res = await getQuestionById(questionID, user.username);
     setQuestion(res || null);] inside [try], the [catch] reporting on the
    console. *)
Definition fetchData : Async unit :=
  try_catch
    (res ← ((λ p, (p, getQuestionById (questionID p) username))
              : Async (option Question.t));
     ((λ p, (setQuestion res p, inr ())) : Async unit))
    (λ error, console_error "Error fetching question:" error).

End QuestionService.

(** ** Marking an answer as correct *)

Section AnswerService.

(** The route parameter the handler closes over. *)
Variable qid : option string.

(** Modelled from the spec: [updateAnswerCorrect] of
    [../services/answerService] is not among the sources.  It is the call
    [set-answer-correctness(aggregateId, Answer) -> ack]; what it does is
    left open: any asynchronous function of the identifier and the answer. *)
Variable updateAnswerCorrect : string → Answer.t → Async unit.

Definition handleAnswerCorrect (ans : Answer.t) : Async unit :=
  try_catch
    (match truthy qid with
     | None => throw (mkError "Question ID is undefined.")
     | Some qid => _ ← updateAnswerCorrect qid ans; mret ()
     end)
    (λ error, console_error "Error marking answer as correct:" error).

End AnswerService.

(** ** The question body ([questionBody/index.tsx]) *)

(** The [className] of the question body: the two base classes, then
    [pinned] and [locked] for the flags that are set. *)
Definition questionClassName (pinned locked : bool) : string :=
  let questionClassName := "questionBody right_padding" in
  let questionClassName :=
    if pinned then questionClassName +:+ " pinned" else questionClassName in
  let questionClassName :=
    if locked then questionClassName +:+ " locked" else questionClassName in
  questionClassName.

(** ** The login form ([useLogin]) *)

(** [err.message] *)
Definition message_of (err : Error) : string :=
  match err with mkError message => message end.

(** [haystack.includes(needle)] *)
Definition includes (needle haystack : string) : bool :=
  match String.index 0 needle haystack with
  | Some _ => true
  | None => false
  end.

Module Credentials.
(** The request body [{ username, hashedPassword: password }]. *)
Record t := mk {
  username : string;
  hashedPassword : string;
}.
End Credentials.

Module Response.
(** What the hook reads of a response: [response.ok],
    [response.headers.get('content-type')] (possibly null), the outcome of
    [response.text()] and, of the outcome of [response.json()], the
    [username] of the data. *)
Record t := mk {
  ok : bool;
  contentType : option string;
  text : Error + string;
  json : Error + string;
}.
End Response.

Module Login.
(** The four [useState] cells of [useLogin], the user set through the login
    context ([setUser]), the calls of [navigate] and the calls of [fetch]. *)
Record t := mk {
  username : string;
  email : string;
  password : string;
  error : option string;
  user : option string;
  navigated : list string;
  sent : list (string * Credentials.t);
}.
End Login.

(** [if (name === 'username') setUsername(value);
     if (name === 'email') setEmail(value);
     if (name === 'password') setPassword(value);] *)
Definition handleInputChange (name value : string) (s : Login.t) : Login.t :=
  let s :=
    if decide (name = "username")
    then Login.mk value (Login.email s) (Login.password s) (Login.error s)
                  (Login.user s) (Login.navigated s) (Login.sent s)
    else s in
  let s :=
    if decide (name = "email")
    then Login.mk (Login.username s) value (Login.password s) (Login.error s)
                  (Login.user s) (Login.navigated s) (Login.sent s)
    else s in
  let s :=
    if decide (name = "password")
    then Login.mk (Login.username s) (Login.email s) value (Login.error s)
                  (Login.user s) (Login.navigated s) (Login.sent s)
    else s in
  s.

(** [setError(value)] *)
Definition setError (value : option string) (s : Login.t) : Login.t :=
  Login.mk (Login.username s) (Login.email s) (Login.password s) value
           (Login.user s) (Login.navigated s) (Login.sent s).

Section LoginService.

(** The browser's [fetch] for a POST of the credentials to an endpoint: it
    rejects or resolves with a response. *)
Variable fetch : string → Credentials.t → Error + Response.t.

(** The body of the [try] block of [handleSubmit] once the response is
    there: the user name to log in, or the error thrown. *)
Definition readResponse (response : Response.t) : Error + string :=
  if negb (Response.ok response) then
    let message :=
      match Response.contentType response with
      | Some contentType =>
          if includes "text/html" contentType
          then inr "Cannot POST to the specified route."
          else Response.text response
      | None => Response.text response
      end in
    match message with
    | inr message => inl (mkError message)
    | inl err => inl err
    end
  else Response.json response.

(** [handleSubmit]: [setError(null)], the POST of the credentials, then
    either [setUser({ username: data.username }); navigate('/home')] or, in
    the [catch], [setError(err.message)].  [event.preventDefault()] acts on
    the event only and is left out. *)
Definition handleSubmit (isLogin : bool) (s : Login.t) : Login.t :=
  let s := setError None s in
  let endpoint := if isLogin then "/login" else "/createAccount" in
  let body := Credentials.mk (Login.username s) (Login.password s) in
  let s :=
    Login.mk (Login.username s) (Login.email s) (Login.password s)
             (Login.error s) (Login.user s) (Login.navigated s)
             (Login.sent s ++ [(endpoint, body)]) in
  match
    match fetch endpoint body with
    | inr response => readResponse response
    | inl err => inl err
    end
  with
  | inr username =>
      Login.mk (Login.username s) (Login.email s) (Login.password s)
               (Login.error s) (Some username)
               (Login.navigated s ++ ["/home"]) (Login.sent s)
  | inl err => setError (Some (message_of err)) s
  end.

End LoginService.

(** ** Sample data *)

Definition sampleAnswer (id body : string) : Answer.t :=
  Answer.mk id body "ann" "2024-11-01" [] false false false.

Definition sampleQuestion (id : string) (answers : list Answer.t)
    (views : Z) : Question.t :=
  Question.mk id "title" "body" "bob" "2024-10-31" answers views
              ["ann"] ["cid"] [] false false.

Definition samplePage (cache : option Question.t) : Page :=
  mkPage "Q1" cache [] [] [].

(** A page showing question [Q1] with one answer [A1]. *)
Definition seededPage : Page :=
  samplePage (Some (sampleQuestion "Q1" [sampleAnswer "A1" "old"] 0)).

(** Question [Q1] with three answers, and a page showing it. *)
Definition busyQuestion : Question.t :=
  sampleQuestion "Q1"
    [sampleAnswer "A1" "a"; sampleAnswer "A2" "b"; sampleAnswer "A3" "c"] 4.

Definition busyPage : Page := samplePage (Some busyQuestion).

(** A repaint payload for [Q1]: pinned, not locked, and otherwise unlike
    the cached question. *)
Definition pinnedQ1 : Question.t :=
  Question.mk "Q1" "other title" "other body" "eve" "2024-12-24" [] 9
              [] [] [] true false.

(** A page for [Q1] whose fetch has not resolved yet. *)
Definition emptyPage : Page := samplePage None.

(** A comment event for answer [A1]: it names no question. *)
Definition commentOnA1 : Event :=
  commentUpdate (AnswerResult (sampleAnswer "A1" "new")).

(** A vote payload for [Q1] listing [ann] on both sides. *)
Definition overlappingVote : VoteData.t :=
  VoteData.mk "Q1" ["ann"; "bob"] ["cid"; "ann"].

(** A vote payload for [Q1] with separate sides. *)
Definition cleanVote : VoteData.t := VoteData.mk "Q1" ["ann"; "bob"] ["cid"].

(** Two lists of voters share no member. *)
Definition share_no_member (up down : list string) : Prop :=
  ∀ u, u ∈ up → u ∉ down.

Example answer_update_replaces_in_place :
  question (handleAnswerUpdate "Q1" (sampleAnswer "A2" "new") false
     (samplePage (Some (sampleQuestion "Q1"
        [sampleAnswer "A1" "a"; sampleAnswer "A2" "old"; sampleAnswer "A3" "c"] 3))))
  = Some (sampleQuestion "Q1"
        [sampleAnswer "A1" "a"; sampleAnswer "A2" "new"; sampleAnswer "A3" "c"] 3).
Proof. reflexivity. Qed.

Example answer_update_never_appends :
  question (handleAnswerUpdate "Q1" (sampleAnswer "A9" "new") false
     (samplePage (Some (sampleQuestion "Q1" [sampleAnswer "A1" "a"] 3))))
  = Some (sampleQuestion "Q1" [sampleAnswer "A1" "a"] 3).
Proof. reflexivity. Qed.

Example answer_update_removes :
  question (handleAnswerUpdate "Q1" (sampleAnswer "A2" "whatever") true
     (samplePage (Some (sampleQuestion "Q1"
        [sampleAnswer "A1" "a"; sampleAnswer "A2" "old"; sampleAnswer "A3" "c"] 3))))
  = Some (sampleQuestion "Q1" [sampleAnswer "A1" "a"; sampleAnswer "A3" "c"] 3).
Proof. reflexivity. Qed.

Example new_comment_without_target :
  handleNewComment (λ _ _, None) (Comment.mk "hi" "ann" "now") answer_target None
    (samplePage None)
  = (mkPage "Q1" None [] []
       [("Error adding comment:", mkError "No target ID provided.")], inr ()).
Proof. reflexivity. Qed.

(** ** Basic facts about the state cells *)

Lemma setQuestion_same (p : Page) : setQuestion (question p) p = p.
Proof. by destruct p. Qed.

Lemma with_answers_same (q : Question.t) :
  Question.with_answers q (Question.answers q) = q.
Proof. by destruct q. Qed.

Lemma with_answers_twice (q : Question.t) (l k : list Answer.t) :
  Question.with_answers (Question.with_answers q l) k
  = Question.with_answers q k.
Proof. done. Qed.

(** ** Replacing and removing by identifier *)

Section ById.
Implicit Types (answer ans : Answer.t) (l : list Answer.t).

Lemma replace_answer_hit answer ans :
  Answer._id ans = Answer._id answer → replace_answer answer ans = answer.
Proof. intros E. unfold replace_answer. by rewrite decide_True. Qed.

Lemma replace_answer_miss answer ans :
  Answer._id ans ≠ Answer._id answer → replace_answer answer ans = ans.
Proof. intros E. unfold replace_answer. by rewrite decide_False. Qed.

Lemma replace_answer_twice answer ans :
  replace_answer answer (replace_answer answer ans)
  = replace_answer answer ans.
Proof.
  destruct (decide (Answer._id ans = Answer._id answer)) as [E|E].
  - rewrite (replace_answer_hit _ ans E). by apply replace_answer_hit.
  - by rewrite !(replace_answer_miss _ ans E).
Qed.

Lemma replace_absent answer l :
  Answer._id answer ∉ Answer._id <$> l → replace_answer answer <$> l = l.
Proof.
  intros Hnot. rewrite <-(list_fmap_id l) at 2.
  apply list_fmap_ext. intros i ans Hi. apply replace_answer_miss.
  intros E. apply Hnot. rewrite <-E.
  apply list_elem_of_fmap_2. by eapply list_elem_of_lookup_2.
Qed.

Lemma filter_all_kept (id : string) l :
  id ∉ Answer._id <$> l → filter (λ ans, Answer._id ans ≠ id) l = l.
Proof.
  induction l as [|a l IH]; [done|]. rewrite fmap_cons, not_elem_of_cons.
  intros [Ha Hl]. rewrite filter_cons_True by done. by rewrite IH.
Qed.

(** With pairwise distinct identifiers, filtering an identifier out cuts
    one entry out of the sequence and keeps both sides as they are. *)
Lemma filter_cuts_one (id : string) l :
  NoDup (Answer._id <$> l) → id ∈ Answer._id <$> l →
  ∃ l1 a l2, l = l1 ++ a :: l2 ∧ Answer._id a = id
             ∧ filter (λ ans, Answer._id ans ≠ id) l = l1 ++ l2.
Proof.
  intros Hnd Hin.
  apply list_elem_of_fmap in Hin as (a & -> & Ha).
  apply list_elem_of_split in Ha as (l1 & l2 & ->).
  exists l1, a, l2. split_and!; [done..|].
  rewrite fmap_app, fmap_cons in Hnd.
  apply NoDup_app in Hnd as (_ & Hl1 & Hnd).
  apply NoDup_cons in Hnd as (Hl2 & _).
  rewrite filter_app, filter_cons_False by (intros E; by apply E).
  rewrite !filter_all_kept; [done..|].
  intros Hin. apply (Hl1 _ Hin). left.
Qed.
End ById.

(** ** Answer events *)

(** C1. For a cached question and an answer event addressed to the active
    question, the cache afterwards holds a question that differs from the old
    one in its answer sequence only.  With the removal flag that sequence is
    the old one without the answers carrying the payload answer's identifier
    (a subsequence holding exactly the answers with another identifier);
    without the flag every position holding that identifier now holds the
    payload answer and every other position is as before, the length is
    unchanged, and when no answer carries the identifier the page is
    unchanged.  The other cells of the page are as before. *)
Theorem answer_update_merge (id : string) (answer : Answer.t)
    (removed : bool) (p : Page) (q : Question.t) :
  id = questionID p → question p = Some q →
  ∃ q' : Question.t,
    question (handleAnswerUpdate id answer removed p) = Some q'
    ∧ (if removed then
         Question.answers q'
           = filter (λ ans, Answer._id ans ≠ Answer._id answer)
                    (Question.answers q)
         ∧ Question.answers q' `sublist_of` Question.answers q
         ∧ (∀ ans, ans ∈ Question.answers q' ↔
              ans ∈ Question.answers q ∧ Answer._id ans ≠ Answer._id answer)
       else
         length (Question.answers q') = length (Question.answers q)
         ∧ (∀ i ans, Question.answers q !! i = Some ans →
              Question.answers q' !! i
              = Some (if decide (Answer._id ans = Answer._id answer)
                      then answer else ans))
         ∧ (Answer._id answer ∉ Answer._id <$> Question.answers q →
              Question.answers q' = Question.answers q
              ∧ handleAnswerUpdate id answer removed p = p))
    ∧ Question._id q' = Question._id q
    ∧ Question.title q' = Question.title q
    ∧ Question.text q' = Question.text q
    ∧ Question.askedBy q' = Question.askedBy q
    ∧ Question.askDateTime q' = Question.askDateTime q
    ∧ Question.views q' = Question.views q
    ∧ Question.upVotes q' = Question.upVotes q
    ∧ Question.downVotes q' = Question.downVotes q
    ∧ Question.comments q' = Question.comments q
    ∧ Question.pinned q' = Question.pinned q
    ∧ Question.locked q' = Question.locked q
    ∧ questionID (handleAnswerUpdate id answer removed p) = questionID p
    ∧ navigated (handleAnswerUpdate id answer removed p) = navigated p
    ∧ requests (handleAnswerUpdate id answer removed p) = requests p
    ∧ console (handleAnswerUpdate id answer removed p) = console p.
Proof.
  intros Hid Hq. unfold handleAnswerUpdate, setQuestionWith, mergedAnswers.
  rewrite decide_True by done. rewrite Hq.
  eexists. split; [reflexivity|]. simpl. split; [|by split_and!].
  destruct removed.
  - split_and!; [done|apply sublist_filter|].
    intros ans. rewrite list_elem_of_filter. tauto.
  - split_and!.
    + apply length_fmap.
    + intros i ans Hi. rewrite list_lookup_fmap, Hi. done.
    + intros Hnot. rewrite (replace_absent _ _ Hnot). split; [done|].
      rewrite with_answers_same, <-Hq. apply setQuestion_same.
Qed.

Lemma answer_update_merge_witness :
  (∃ q' : Question.t,
     question (handleAnswerUpdate "Q1" (sampleAnswer "A2" "gone") true busyPage)
       = Some q'
     ∧ Question.answers q' = [sampleAnswer "A1" "a"; sampleAnswer "A3" "c"]
     ∧ Question.views q' = 4%Z)
  ∧ (∃ q' : Question.t,
       question (handleAnswerUpdate "Q1" (sampleAnswer "A2" "new") false
                   busyPage)
         = Some q'
       ∧ length (Question.answers q') = 3
       ∧ Question.answers q' !! 0 = Some (sampleAnswer "A1" "a")
       ∧ Question.answers q' !! 1 = Some (sampleAnswer "A2" "new")
       ∧ Question.answers q' !! 2 = Some (sampleAnswer "A3" "c")).
Proof.
  split.
  - destruct (answer_update_merge "Q1" (sampleAnswer "A2" "gone") true
                busyPage busyQuestion eq_refl eq_refl)
      as (q' & Hq' & (Hl & _ & _) & _ & _ & _ & _ & _ & Hviews & _).
    exists q'. split_and!; [exact Hq'| |exact Hviews].
    rewrite Hl. reflexivity.
  - destruct (answer_update_merge "Q1" (sampleAnswer "A2" "new") false
                busyPage busyQuestion eq_refl eq_refl)
      as (q' & Hq' & (Hlen & Hpos & _) & _).
    exists q'. split_and!; [exact Hq'|exact Hlen|..].
    + apply (Hpos 0 (sampleAnswer "A1" "a")). reflexivity.
    + apply (Hpos 1 (sampleAnswer "A2" "b")). reflexivity.
    + apply (Hpos 2 (sampleAnswer "A3" "c")). reflexivity.
Defined.

(** C7. For a question whose answer identifiers are pairwise distinct and
    a removal whose answer identifier occurs among them: the sequence splits
    around the one answer with that identifier, the merged sequence is what
    stood before it followed by what stood after it, it is shorter by exactly
    one, and every answer with another identifier is still in it.  On a page
    caching that question, the answer event addressed to the active question
    leaves the question with this sequence in the cache. *)
Theorem answer_removal_drops_one (answer : Answer.t) (q : Question.t) :
  NoDup (Answer._id <$> Question.answers q) →
  Answer._id answer ∈ Answer._id <$> Question.answers q →
  ∃ (l1 : list Answer.t) (a : Answer.t) (l2 : list Answer.t),
    Question.answers q = l1 ++ a :: l2
    ∧ Answer._id a = Answer._id answer
    ∧ mergedAnswers answer true (Question.answers q) = l1 ++ l2
    ∧ length (mergedAnswers answer true (Question.answers q)) + 1
      = length (Question.answers q)
    ∧ (∀ ans, ans ∈ Question.answers q →
         Answer._id ans ≠ Answer._id answer →
         ans ∈ mergedAnswers answer true (Question.answers q))
    ∧ (∀ p : Page, question p = Some q →
         question (handleAnswerUpdate (questionID p) answer true p)
         = Some (Question.with_answers q (l1 ++ l2))).
Proof.
  intros Hnd Hin.
  destruct (filter_cuts_one _ _ Hnd Hin) as (l1 & a & l2 & Hl & Ha & Hf).
  exists l1, a, l2. unfold mergedAnswers. rewrite Hf.
  split_and!; [done..| | |].
  - rewrite Hl, !length_app. simpl. lia.
  - intros ans Hans Hne. rewrite Hl in Hans.
    rewrite elem_of_app, elem_of_cons in Hans. rewrite elem_of_app.
    destruct Hans as [?|[->|?]]; [by left|done|by right].
  - intros p Hq. unfold handleAnswerUpdate, setQuestionWith, mergedAnswers.
    rewrite decide_True by done. rewrite Hq. simpl. by rewrite Hf.
Qed.

Lemma answer_removal_drops_one_witness :
  ∃ (l1 : list Answer.t) (a : Answer.t) (l2 : list Answer.t),
    [sampleAnswer "A1" "a"; sampleAnswer "A2" "b"; sampleAnswer "A3" "c"]
      = l1 ++ a :: l2
    ∧ Answer._id a = "A2"
    ∧ mergedAnswers (sampleAnswer "A2" "any") true
        [sampleAnswer "A1" "a"; sampleAnswer "A2" "b"; sampleAnswer "A3" "c"]
      = l1 ++ l2
    ∧ length (l1 ++ l2) + 1 = 3
    ∧ sampleAnswer "A1" "a" ∈ l1 ++ l2
    ∧ sampleAnswer "A3" "c" ∈ l1 ++ l2
    ∧ ∃ q' : Question.t,
        question (handleAnswerUpdate "Q1" (sampleAnswer "A2" "any") true
                    busyPage) = Some q'
        ∧ Question.answers q' = l1 ++ l2.
Proof.
  destruct (answer_removal_drops_one (sampleAnswer "A2" "any") busyQuestion)
    as (l1 & a & l2 & Hsplit & Ha & Hm & Hlen & Hkept & Hpage).
  - apply (bool_decide_unpack _). vm_compute. exact I.
  - apply (bool_decide_unpack _). vm_compute. exact I.
  - exists l1, a, l2. rewrite <-Hm.
    split_and!; [exact Hsplit|exact Ha|reflexivity|exact Hlen|..].
    + apply (Hkept (sampleAnswer "A1" "a")); [|discriminate].
      simpl. apply list_elem_of_here.
    + apply (Hkept (sampleAnswer "A3" "c")); [|discriminate].
      simpl. do 2 apply list_elem_of_further. apply list_elem_of_here.
    + rewrite Hm. eexists. split; [apply (Hpage busyPage eq_refl)|].
      reflexivity.
Defined.

(** C8. Delivering the same answer event twice gives the page that
    delivering it once gives, whatever the flag, the cache and the
    identifier in the event. *)
Theorem answer_update_idempotent (id : string) (answer : Answer.t)
    (removed : bool) (p : Page) :
  handleAnswerUpdate id answer removed (handleAnswerUpdate id answer removed p)
  = handleAnswerUpdate id answer removed p.
Proof.
  unfold handleAnswerUpdate.
  destruct (decide (id = questionID p)) as [Hid|Hid]; simpl.
  - rewrite decide_True by done.
    unfold setQuestionWith, setQuestion; simpl.
    destruct (question p) as [q|]; [|done].
    f_equal. f_equal. rewrite with_answers_twice. f_equal. simpl.
    unfold mergedAnswers. destruct removed.
    + rewrite list_filter_filter. apply list_filter_iff. tauto.
    + rewrite <-list_fmap_compose. apply list_fmap_ext.
      intros i ans _. apply replace_answer_twice.
  - by rewrite decide_False.
Qed.

(** ** Routing by identifier *)



(** C3, as stated, fails: a view event for the active question fills an
    empty cache. *)
Lemma view_event_seeds_empty_cache :
  question emptyPage = None
  ∧ question (deliver (viewsUpdate (sampleQuestion "Q1" [] 1)) emptyPage)
    ≠ None.
Proof. split; [reflexivity|discriminate]. Qed.

(** C3, amended.  On an empty cache an answer, vote or repaint event and a
    comment event tagged answer leave the cache empty; a view event or a
    comment event tagged question puts its question into the cache when that
    question carries the active identifier and leaves the cache empty
    otherwise. *)
Theorem empty_cache_after_event (ev : Event) (p : Page) :
  question p = None →
  question (deliver ev p) =
    match ev with
    | viewsUpdate q | commentUpdate (QuestionResult q) =>
        if decide (Question._id q = questionID p) then Some q else None
    | _ => None
    end.
Proof.
  intros Hq.
  destruct ev as [id answer removed|q|[result|result]|voteData|quest removed];
    simpl.
  - unfold handleAnswerUpdate, setQuestionWith. rewrite Hq.
    by case_decide.
  - unfold handleViewsUpdate. by case_decide.
  - by case_decide.
  - unfold setQuestionWith. by rewrite Hq.
  - unfold handleVoteUpdate, setQuestionWith. rewrite Hq. by case_decide.
  - unfold handleQuestionRepaint, setQuestionWith. rewrite Hq.
    case_decide; [|done]. by destruct removed.
Qed.

Lemma empty_cache_after_event_witness :
  question (deliver (voteUpdate cleanVote) emptyPage) = None.
Proof.
  apply (empty_cache_after_event (voteUpdate cleanVote) emptyPage).
  reflexivity.
Defined.

(** ** Vote events *)

(** C4. For a cached question and a vote event addressed to the active
    question, the cache afterwards holds a question with the payload's two
    voter lists that agrees with the old one on every other field; the
    other cells of the page are as before. *)
Theorem vote_update_replaces_only_votes (voteData : VoteData.t) (p : Page)
    (q : Question.t) :
  VoteData.qid voteData = questionID p → question p = Some q →
  ∃ q' : Question.t,
    question (handleVoteUpdate voteData p) = Some q'
    ∧ Question.upVotes q' = VoteData.upVotes voteData
    ∧ Question.downVotes q' = VoteData.downVotes voteData
    ∧ Question._id q' = Question._id q
    ∧ Question.title q' = Question.title q
    ∧ Question.text q' = Question.text q
    ∧ Question.askedBy q' = Question.askedBy q
    ∧ Question.askDateTime q' = Question.askDateTime q
    ∧ Question.answers q' = Question.answers q
    ∧ Question.views q' = Question.views q
    ∧ Question.comments q' = Question.comments q
    ∧ Question.pinned q' = Question.pinned q
    ∧ Question.locked q' = Question.locked q
    ∧ questionID (handleVoteUpdate voteData p) = questionID p
    ∧ navigated (handleVoteUpdate voteData p) = navigated p
    ∧ requests (handleVoteUpdate voteData p) = requests p
    ∧ console (handleVoteUpdate voteData p) = console p.
Proof.
  intros Hid Hq. unfold handleVoteUpdate, setQuestionWith.
  rewrite decide_True by done. rewrite Hq.
  eexists. split; [reflexivity|]. by split_and!.
Qed.

Lemma vote_update_replaces_only_votes_witness :
  ∃ q' : Question.t,
    question (handleVoteUpdate cleanVote busyPage) = Some q'
    ∧ Question.upVotes q' = ["ann"; "bob"]
    ∧ Question.downVotes q' = ["cid"]
    ∧ Question.answers q'
      = [sampleAnswer "A1" "a"; sampleAnswer "A2" "b"; sampleAnswer "A3" "c"]
    ∧ Question.views q' = 4%Z.
Proof.
  destruct (vote_update_replaces_only_votes cleanVote busyPage busyQuestion
              eq_refl eq_refl)
    as (q' & E & Hup & Hdown & _ & _ & _ & _ & _ & Hans & Hviews & _).
  exists q'.
  split_and!; [exact E|exact Hup|exact Hdown|exact Hans|exact Hviews].
Defined.

(** C6, as stated, fails: the merge copies the payload, so a payload that
    lists a voter on both sides leaves the cached lists sharing a member. *)
Lemma overlapping_vote_is_kept :
  VoteData.qid overlappingVote = questionID seededPage
  ∧ ∃ q' : Question.t,
      question (handleVoteUpdate overlappingVote seededPage) = Some q'
      ∧ ¬ share_no_member (Question.upVotes q') (Question.downVotes q').
Proof.
  split; [reflexivity|]. eexists. split; [reflexivity|].
  intros H. apply (H "ann"); simpl.
  - apply list_elem_of_here.
  - apply list_elem_of_further, list_elem_of_here.
Qed.

(** C6, amended.  For a cached question and every vote event addressed to
    the active question, the cached voter lists after the merge are the
    payload's, whether or not these overlap; so the cached lists share no
    member exactly when the payload's lists share none. *)
Theorem vote_update_keeps_disjoint (voteData : VoteData.t) (p : Page)
    (q : Question.t) :
  VoteData.qid voteData = questionID p → question p = Some q →
  ∃ q' : Question.t,
    question (handleVoteUpdate voteData p) = Some q'
    ∧ Question.upVotes q' = VoteData.upVotes voteData
    ∧ Question.downVotes q' = VoteData.downVotes voteData
    ∧ (share_no_member (Question.upVotes q') (Question.downVotes q')
       ↔ share_no_member (VoteData.upVotes voteData)
                         (VoteData.downVotes voteData)).
Proof.
  intros Hid Hq. unfold handleVoteUpdate, setQuestionWith.
  rewrite decide_True by done. rewrite Hq.
  eexists. split; [reflexivity|]. by split_and!.
Qed.

Lemma vote_update_keeps_disjoint_witness :
  (∃ q' : Question.t,
     question (handleVoteUpdate cleanVote busyPage) = Some q'
     ∧ Question.upVotes q' = ["ann"; "bob"]
     ∧ Question.downVotes q' = ["cid"]
     ∧ share_no_member (Question.upVotes q') (Question.downVotes q'))
  ∧ (∃ q' : Question.t,
       question (handleVoteUpdate overlappingVote busyPage) = Some q'
       ∧ Question.upVotes q' = ["ann"; "bob"]
       ∧ Question.downVotes q' = ["cid"; "ann"]).
Proof.
  split.
  - destruct (vote_update_keeps_disjoint cleanVote busyPage busyQuestion
                eq_refl eq_refl)
      as (q' & E & Hup & Hdown & Hdis).
    exists q'. split_and!; [exact E|exact Hup|exact Hdown|].
    apply Hdis. intros u Hu Hd. simpl in Hu, Hd.
    apply list_elem_of_singleton in Hd as ->.
    apply (bool_decide_pack _) in Hu. vm_compute in Hu. exact Hu.
  - destruct (vote_update_keeps_disjoint overlappingVote busyPage busyQuestion
                eq_refl eq_refl)
      as (q' & E & Hup & Hdown & _).
    exists q'. split_and!; [exact E|exact Hup|exact Hdown].
Defined.

(** ** Repaint events *)

(** C5. For a cached question and a repaint event addressed to the active
    question: with the removal flag the page is the old one after
    [navigate('/home')], the cache being untouched; without the flag the
    cache afterwards holds a question with the payload's [pinned] and
    [locked] that agrees with the old one on every other field, the answers
    among them, no navigation is issued and the other cells of the page are
    as before. *)
Theorem repaint_merge (quest : Question.t) (removed : bool) (p : Page)
    (q : Question.t) :
  Question._id quest = questionID p → question p = Some q →
  if removed then
    handleQuestionRepaint quest removed p = navigate "/home" p
    ∧ navigated (handleQuestionRepaint quest removed p)
      = navigated p ++ ["/home"]
    ∧ question (handleQuestionRepaint quest removed p) = Some q
  else
    ∃ q' : Question.t,
      question (handleQuestionRepaint quest removed p) = Some q'
      ∧ navigated (handleQuestionRepaint quest removed p) = navigated p
      ∧ Question.pinned q' = Question.pinned quest
      ∧ Question.locked q' = Question.locked quest
      ∧ Question._id q' = Question._id q
      ∧ Question.title q' = Question.title q
      ∧ Question.text q' = Question.text q
      ∧ Question.askedBy q' = Question.askedBy q
      ∧ Question.askDateTime q' = Question.askDateTime q
      ∧ Question.answers q' = Question.answers q
      ∧ Question.views q' = Question.views q
      ∧ Question.upVotes q' = Question.upVotes q
      ∧ Question.downVotes q' = Question.downVotes q
      ∧ Question.comments q' = Question.comments q
      ∧ questionID (handleQuestionRepaint quest removed p) = questionID p
      ∧ requests (handleQuestionRepaint quest removed p) = requests p
      ∧ console (handleQuestionRepaint quest removed p) = console p.
Proof.
  intros Hid Hq. unfold handleQuestionRepaint, setQuestionWith.
  rewrite decide_True by done. destruct removed.
  - by split_and!.
  - rewrite Hq. eexists. split; [reflexivity|]. by split_and!.
Qed.

Lemma repaint_merge_witness :
  (∃ q' : Question.t,
     question (handleQuestionRepaint pinnedQ1 false busyPage) = Some q'
     ∧ Question.pinned q' = true
     ∧ Question.locked q' = false
     ∧ Question.title q' = "title"
     ∧ Question.answers q'
       = [sampleAnswer "A1" "a"; sampleAnswer "A2" "b"; sampleAnswer "A3" "c"]
     ∧ navigated (handleQuestionRepaint pinnedQ1 false busyPage) = [])
  ∧ navigated (handleQuestionRepaint pinnedQ1 true busyPage) = ["/home"]
  ∧ question (handleQuestionRepaint pinnedQ1 true busyPage)
    = Some busyQuestion.
Proof.
  split.
  - destruct (repaint_merge pinnedQ1 false busyPage busyQuestion
                eq_refl eq_refl)
      as (q' & E & Hnav & Hpin & Hlock & _ & Htitle & _ & _ & _ & Hans & _).
    exists q'.
    split_and!;
      [exact E|exact Hpin|exact Hlock|exact Htitle|exact Hans|exact Hnav].
  - destruct (repaint_merge pinnedQ1 true busyPage busyQuestion
                eq_refl eq_refl) as (_ & Hnav & Hq).
    split; [exact Hnav|exact Hq].
Defined.

(** ** Comment events *)

(** C9. Two comment events tagged question, both carrying the active
    identifier: after the first then the second the cache is the second
    question, after the second then the first it is the first, whatever was
    cached before and whatever dates the two questions carry. *)
Theorem comment_update_last_wins (v1 v2 : Question.t) (p : Page) :
  Question._id v1 = questionID p → Question._id v2 = questionID p →
  question (handleCommentUpdate (QuestionResult v2)
              (handleCommentUpdate (QuestionResult v1) p)) = Some v2
  ∧ question (handleCommentUpdate (QuestionResult v1)
                (handleCommentUpdate (QuestionResult v2) p)) = Some v1.
Proof.
  intros H1 H2.
  assert (Hset : ∀ v p', Question._id v = questionID p' →
            question (handleCommentUpdate (QuestionResult v) p') = Some v).
  { intros v p' Hv. unfold handleCommentUpdate. by rewrite decide_True. }
  assert (Hid : ∀ v, Question._id v = questionID p →
            questionID (handleCommentUpdate (QuestionResult v) p)
            = questionID p).
  { intros v Hv. unfold handleCommentUpdate. by rewrite decide_True. }
  split; apply Hset; rewrite Hid; done.
Qed.

Lemma comment_update_last_wins_witness :
  question (handleCommentUpdate (QuestionResult (sampleQuestion "Q1" [] 2))
              (handleCommentUpdate (QuestionResult (sampleQuestion "Q1" [] 1))
                 seededPage))
    = Some (sampleQuestion "Q1" [] 2)
  ∧ question (handleCommentUpdate (QuestionResult (sampleQuestion "Q1" [] 1))
                (handleCommentUpdate (QuestionResult (sampleQuestion "Q1" [] 2))
                   seededPage))
    = Some (sampleQuestion "Q1" [] 1).
Proof.
  apply (comment_update_last_wins (sampleQuestion "Q1" [] 1)
           (sampleQuestion "Q1" [] 2) seededPage); reflexivity.
Defined.

(** ** Issuing a comment *)

(** C10. Whatever the gateway answers: [handleNewComment] always resolves,
    never touching the cache or the navigation; called without a target
    identifier it sends no request; and a request the gateway rejects is
    sent, the rejection being reported on the console and not passed on. *)
Theorem new_comment_absorbs_errors
    (gateway : list Request → Request → option Error)
    (comment : Comment.t) (targetType : TargetType)
    (targetId : option string) (p : Page) :
  let r := handleNewComment gateway comment targetType targetId p in
  r.2 = inr ()
  ∧ question r.1 = question p
  ∧ questionID r.1 = questionID p
  ∧ navigated r.1 = navigated p
  ∧ match targetId with
    | None => requests r.1 = requests p
    | Some id =>
        requests r.1 = requests p ++ [mkRequest id targetType comment]
        ∧ ∀ e, gateway (requests p) (mkRequest id targetType comment) = Some e →
               console r.1 = console p ++ [("Error adding comment:", e)]
    end.
Proof.
  unfold handleNewComment, try_catch. destruct targetId as [id|]; simpl.
  - unfold mbind, Async_bind, await, addComment.
    destruct (gateway _ _) as [e|] eqn:Hg; simpl; split_and!; try done.
    intros e' [= <-]. done.
  - by split_and!.
Qed.

(** ** What no event touches *)

(** Every handler leaves the active identifier, the comment requests and the
    console as they are.  The only navigation an event can cause is the one
    to [/home], by a repaint event for the active question with the removal
    flag; every other event leaves the navigation as it is. *)
Theorem deliver_frame (ev : Event) (p : Page) :
  questionID (deliver ev p) = questionID p
  ∧ requests (deliver ev p) = requests p
  ∧ console (deliver ev p) = console p
  ∧ navigated (deliver ev p)
    = navigated p ++
      match ev with
      | questionUpdate quest true =>
          if decide (Question._id quest = questionID p) then ["/home"] else []
      | _ => []
      end.
Proof.
  destruct ev as [id answer removed|q|[result|result]|voteData|quest removed];
    simpl.
  - unfold handleAnswerUpdate. case_decide; simpl; by rewrite app_nil_r.
  - unfold handleViewsUpdate. case_decide; simpl; by rewrite app_nil_r.
  - case_decide; simpl; by rewrite app_nil_r.
  - by rewrite app_nil_r.
  - unfold handleVoteUpdate. case_decide; simpl; by rewrite app_nil_r.
  - unfold handleQuestionRepaint.
    destruct removed; case_decide; simpl; by rewrite ?app_nil_r.
Qed.

Lemma deliver_questionID (ev : Event) (p : Page) :
  questionID (deliver ev p) = questionID p.
Proof.
  destruct ev as [id answer removed|q|[result|result]|voteData|quest removed];
    simpl; try done.
  - unfold handleAnswerUpdate. by case_decide.
  - unfold handleViewsUpdate. by case_decide.
  - by case_decide.
  - unfold handleVoteUpdate. by case_decide.
  - unfold handleQuestionRepaint. destruct removed; by case_decide.
Qed.

Lemma replay_questionID (evs : list Event) (p : Page) :
  questionID (replay evs p) = questionID p.
Proof.
  revert p. induction evs as [|ev evs IH]; intros p; [done|].
  simpl. change (questionID (replay evs (deliver ev p)) = questionID p).
  by rewrite IH, deliver_questionID.
Qed.

(** ** The cached question is the active one *)

Lemma deliver_consistent (ev : Event) (p : Page) :
  cache_consistent p → cache_consistent (deliver ev p).
Proof.
  intros Hp q'. rewrite deliver_questionID.
  destruct ev as [id answer removed|q|[result|result]|voteData|quest removed];
    simpl.
  - unfold handleAnswerUpdate, setQuestionWith. case_decide; [|apply Hp].
    destruct (question p) as [q|] eqn:Hq; simpl; [|done].
    intros [= <-]. simpl. by apply Hp.
  - unfold handleViewsUpdate. case_decide; [|apply Hp]. by intros [= <-].
  - case_decide; [|apply Hp]. by intros [= <-].
  - unfold setQuestionWith.
    destruct (question p) as [q|] eqn:Hq; simpl; [|done].
    intros [= <-]. simpl. by apply Hp.
  - unfold handleVoteUpdate, setQuestionWith. case_decide; [|apply Hp].
    destruct (question p) as [q|] eqn:Hq; simpl; [|done].
    intros [= <-]. simpl. by apply Hp.
  - unfold handleQuestionRepaint, setQuestionWith. case_decide; [|apply Hp].
    destruct removed; [apply Hp|].
    destruct (question p) as [q|] eqn:Hq; simpl; [|done].
    intros [= <-]. simpl. by apply Hp.
Qed.

(** When the cached question carries the active identifier, it still does
    after any events, in any number and order: no handler stores a question
    with another identifier or changes the identifier of the stored one. *)
Theorem replay_keeps_cache_consistent (evs : list Event) (p : Page) :
  cache_consistent p → cache_consistent (replay evs p).
Proof.
  revert p. induction evs as [|ev evs IH]; intros p Hp; [done|].
  apply (IH (deliver ev p)). by apply deliver_consistent.
Qed.

Lemma replay_consistent_snoc (evs : list Event) (ev : Event) (p : Page) :
  cache_consistent (replay evs p) → cache_consistent (replay (evs ++ [ev]) p).
Proof.
  intros H. unfold replay. rewrite foldl_snoc. by apply deliver_consistent.
Qed.

Lemma replay_keeps_cache_consistent_witness :
  cache_consistent
    (replay [viewsUpdate (sampleQuestion "Q2" [] 7); voteUpdate cleanVote;
             commentOnA1] seededPage).
Proof.
  apply (replay_keeps_cache_consistent
           [viewsUpdate (sampleQuestion "Q2" [] 7); voteUpdate cleanVote;
            commentOnA1] seededPage).
  intros q [= <-]. reflexivity.
Defined.

(** ** Replayed events *)

Lemma mergedAnswers_twice (answer : Answer.t) (removed : bool)
    (l : list Answer.t) :
  mergedAnswers answer removed (mergedAnswers answer removed l)
  = mergedAnswers answer removed l.
Proof.
  unfold mergedAnswers. destruct removed.
  - rewrite list_filter_filter. apply list_filter_iff. tauto.
  - rewrite <-list_fmap_compose. apply list_fmap_ext.
    intros i ans _. apply replace_answer_twice.
Qed.

(** An event delivered twice in a row leaves the cache that delivering it
    once leaves, for every kind of event; and unless the first delivery
    navigated away, the whole page is the same. *)
Theorem deliver_twice (ev : Event) (p : Page) :
  question (deliver ev (deliver ev p)) = question (deliver ev p)
  ∧ (navigated (deliver ev p) = navigated p →
     deliver ev (deliver ev p) = deliver ev p).
Proof.
  destruct ev as [id answer removed|q|[result|result]|voteData|quest removed];
    simpl.
  - assert (handleAnswerUpdate id answer removed
              (handleAnswerUpdate id answer removed p)
            = handleAnswerUpdate id answer removed p) as ->; [|done].
    unfold handleAnswerUpdate.
    destruct (decide (id = questionID p)) as [Hid|Hid]; simpl;
      [|by rewrite decide_False].
    rewrite decide_True by done. unfold setQuestionWith, setQuestion; simpl.
    destruct (question p) as [q|]; [|done]. simpl.
    by rewrite with_answers_twice, mergedAnswers_twice.
  - unfold handleViewsUpdate.
    destruct (decide (Question._id q = questionID p)) as [Hid|Hid]; simpl.
    + by rewrite decide_True.
    + by rewrite decide_False.
  - destruct (decide (Question._id result = questionID p)) as [Hid|Hid]; simpl.
    + by rewrite decide_True.
    + by rewrite decide_False.
  - unfold setQuestionWith, setQuestion; simpl.
    destruct (question p) as [q|]; [|done]. simpl.
    rewrite with_answers_twice.
    pose proof (mergedAnswers_twice result false (Question.answers q)) as H.
    unfold mergedAnswers in H. by rewrite H.
  - unfold handleVoteUpdate.
    destruct (decide (VoteData.qid voteData = questionID p)) as [Hid|Hid];
      simpl; [|by rewrite decide_False].
    rewrite decide_True by done. unfold setQuestionWith, setQuestion; simpl.
    by destruct (question p).
  - unfold handleQuestionRepaint.
    destruct (decide (Question._id quest = questionID p)) as [Hid|Hid];
      simpl; [|by rewrite decide_False].
    destruct removed; simpl; rewrite decide_True by done.
    + split; [done|]. intros H. exfalso.
      apply (f_equal length) in H. rewrite length_app in H. simpl in H. lia.
    + unfold setQuestionWith, setQuestion; simpl. by destruct (question p).
Qed.

Lemma deliver_twice_witness :
  deliver (voteUpdate cleanVote) (deliver (voteUpdate cleanVote) seededPage)
  = deliver (voteUpdate cleanVote) seededPage.
Proof.
  apply (deliver_twice (voteUpdate cleanVote) seededPage). reflexivity.
Defined.

(** ** The identifiers of the cached answers *)

Lemma replace_keeps_ids (answer : Answer.t) (l : list Answer.t) :
  Answer._id <$> (replace_answer answer <$> l) = Answer._id <$> l.
Proof.
  rewrite <-list_fmap_compose. apply list_fmap_ext. intros i ans _. simpl.
  unfold replace_answer. by case_decide.
Qed.

Lemma mergedAnswers_ids (answer : Answer.t) (removed : bool)
    (l : list Answer.t) :
  (Answer._id <$> mergedAnswers answer removed l)
    `sublist_of` (Answer._id <$> l)
  ∧ (removed = false →
     Answer._id <$> mergedAnswers answer removed l = Answer._id <$> l).
Proof.
  unfold mergedAnswers. destruct removed.
  - split; [|done]. apply fmap_sublist, sublist_filter.
  - by rewrite replace_keeps_ids.
Qed.

Lemma patch_ids_sublist (ev : Event) (p : Page) :
  patches ev = true → answerIds (deliver ev p) `sublist_of` answerIds p.
Proof.
  destruct ev as [id answer removed|q|[result|result]|voteData|quest removed];
    simpl; try done; intros _; unfold answerIds.
  - unfold handleAnswerUpdate, setQuestionWith. case_decide; [|done].
    destruct (question p) as [q|]; simpl; [|done].
    apply mergedAnswers_ids.
  - unfold setQuestionWith. destruct (question p) as [q|]; simpl; [|done].
    by rewrite replace_keeps_ids.
  - unfold handleVoteUpdate, setQuestionWith. case_decide; [|done].
    by destruct (question p).
  - unfold handleQuestionRepaint, setQuestionWith. case_decide; [|done].
    destruct removed; [done|]. by destruct (question p).
Qed.

(** An event that patches the cache never adds an answer and never moves
    one: the identifiers of the cached answers after the event are a
    subsequence of those before it.  Unless the event is an answer event
    with the removal flag they are the very same sequence. *)
Theorem patch_keeps_answer_order (ev : Event) (p : Page) :
  patches ev = true →
  answerIds (deliver ev p) `sublist_of` answerIds p
  ∧ (match ev with answerUpdate _ _ true => False | _ => True end →
     answerIds (deliver ev p) = answerIds p).
Proof.
  destruct ev as [id answer removed|q|[result|result]|voteData|quest removed];
    simpl; try done; intros _; unfold answerIds.
  - unfold handleAnswerUpdate, setQuestionWith. case_decide; [|done].
    destruct (question p) as [q|]; simpl; [|done].
    destruct (mergedAnswers_ids answer removed (Question.answers q))
      as [Hsub Heq].
    split; [done|]. destruct removed; [done|]. intros _. by apply Heq.
  - unfold setQuestionWith. destruct (question p) as [q|]; simpl; [|done].
    by rewrite replace_keeps_ids.
  - unfold handleVoteUpdate, setQuestionWith. case_decide; [|done].
    by destruct (question p).
  - unfold handleQuestionRepaint, setQuestionWith. case_decide; [|done].
    destruct removed; [done|]. by destruct (question p).
Qed.

Lemma patch_keeps_answer_order_witness :
  answerIds (deliver commentOnA1 seededPage) = answerIds seededPage.
Proof.
  apply (patch_keeps_answer_order commentOnA1 seededPage); [reflexivity|].
  simpl. exact I.
Defined.

(** Pairwise distinct answer identifiers stay pairwise distinct under every
    event, provided the question a view event or a comment event tagged
    question brings along has pairwise distinct answer identifiers itself. *)
Theorem deliver_keeps_ids_distinct (ev : Event) (p : Page) :
  NoDup (answerIds p) →
  match ev with
  | viewsUpdate q | commentUpdate (QuestionResult q) =>
      NoDup (Answer._id <$> Question.answers q)
  | _ => True
  end →
  NoDup (answerIds (deliver ev p)).
Proof.
  intros Hp Hev. destruct (patches ev) eqn:Hpatch.
  - eapply sublist_NoDup; [exact Hp|]. by apply patch_ids_sublist.
  - destruct ev as [?|q|[q|?]|?|?]; try done; simpl.
    + unfold handleViewsUpdate. by case_decide.
    + by case_decide.
Qed.

Lemma deliver_keeps_ids_distinct_witness :
  NoDup (answerIds
           (deliver (answerUpdate "Q1" (sampleAnswer "A2" "new") false)
                    busyPage))
  ∧ NoDup (answerIds
             (deliver (answerUpdate "Q1" (sampleAnswer "A2" "gone") true)
                      busyPage))
  ∧ NoDup (answerIds
             (deliver (viewsUpdate
                         (sampleQuestion "Q1"
                            [sampleAnswer "B1" "x"; sampleAnswer "B2" "y"] 5))
                      busyPage)).
Proof.
  split_and!.
  - apply (deliver_keeps_ids_distinct
             (answerUpdate "Q1" (sampleAnswer "A2" "new") false) busyPage).
    + apply (bool_decide_unpack _). vm_compute. exact I.
    + simpl. exact I.
  - apply (deliver_keeps_ids_distinct
             (answerUpdate "Q1" (sampleAnswer "A2" "gone") true) busyPage).
    + apply (bool_decide_unpack _). vm_compute. exact I.
    + simpl. exact I.
  - apply (deliver_keeps_ids_distinct
             (viewsUpdate
                (sampleQuestion "Q1"
                   [sampleAnswer "B1" "x"; sampleAnswer "B2" "y"] 5))
             busyPage).
    + apply (bool_decide_unpack _). vm_compute. exact I.
    + simpl. apply (bool_decide_unpack _). vm_compute. exact I.
Defined.

(** ** Answer events out of order *)

Lemma filter_after_replace (answer answer' : Answer.t) (l : list Answer.t) :
  Answer._id answer' = Answer._id answer →
  filter (λ ans, Answer._id ans ≠ Answer._id answer)
         (replace_answer answer' <$> l)
  = filter (λ ans, Answer._id ans ≠ Answer._id answer) l.
Proof.
  intros E. induction l as [|a l IH]; [done|]. rewrite fmap_cons.
  destruct (decide (Answer._id a = Answer._id answer)) as [Ha|Ha].
  - rewrite replace_answer_hit by congruence.
    rewrite !filter_cons_False by (intros H; apply H; congruence). done.
  - rewrite replace_answer_miss by congruence.
    rewrite !filter_cons_True by done. by rewrite IH.
Qed.

Lemma replace_after_filter (answer answer' : Answer.t) (l : list Answer.t) :
  Answer._id answer' = Answer._id answer →
  replace_answer answer' <$>
    filter (λ ans, Answer._id ans ≠ Answer._id answer) l
  = filter (λ ans, Answer._id ans ≠ Answer._id answer) l.
Proof.
  intros E. apply replace_absent. rewrite E. intros Hin.
  apply list_elem_of_fmap in Hin as (a & Ha & Hin).
  apply list_elem_of_filter in Hin as [Hne _]. by apply Hne.
Qed.

(** A removal and an update of the same answer, in either order: once the
    removal is delivered the answer is gone and a late (or replayed) update
    does not bring it back, and a removal delivered after an update gives
    the page the removal alone gives. *)
Theorem removal_wins_over_update (id : string) (answer answer' : Answer.t)
    (p : Page) :
  Answer._id answer' = Answer._id answer →
  handleAnswerUpdate id answer' false (handleAnswerUpdate id answer true p)
    = handleAnswerUpdate id answer true p
  ∧ handleAnswerUpdate id answer true (handleAnswerUpdate id answer' false p)
    = handleAnswerUpdate id answer true p.
Proof.
  intros E. unfold handleAnswerUpdate.
  destruct (decide (id = questionID p)) as [Hid|Hid]; simpl;
    [|by rewrite !decide_False].
  rewrite !decide_True by done. unfold setQuestionWith, setQuestion; simpl.
  destruct (question p) as [q|]; [|done]. simpl.
  rewrite !with_answers_twice. unfold mergedAnswers.
  by rewrite replace_after_filter, filter_after_replace.
Qed.

Lemma removal_wins_over_update_witness :
  handleAnswerUpdate "Q1" (sampleAnswer "A1" "late") false
    (handleAnswerUpdate "Q1" (sampleAnswer "A1" "old") true seededPage)
  = handleAnswerUpdate "Q1" (sampleAnswer "A1" "old") true seededPage.
Proof.
  apply (removal_wins_over_update "Q1" (sampleAnswer "A1" "old")
           (sampleAnswer "A1" "late") seededPage).
  reflexivity.
Defined.

Lemma replace_replace_commute (a b x : Answer.t) :
  Answer._id a ≠ Answer._id b →
  replace_answer a (replace_answer b x) = replace_answer b (replace_answer a x).
Proof.
  intros Hne.
  destruct (decide (Answer._id x = Answer._id a)) as [Ha|Ha];
    destruct (decide (Answer._id x = Answer._id b)) as [Hb|Hb];
    [congruence| | |].
  - rewrite (replace_answer_miss b x Hb), (replace_answer_hit a x Ha).
    symmetry. by apply replace_answer_miss.
  - rewrite (replace_answer_hit b x Hb), (replace_answer_miss a x Ha).
    rewrite (replace_answer_hit b x Hb). apply replace_answer_miss. congruence.
  - by rewrite (replace_answer_miss b x Hb), (replace_answer_miss a x Ha),
      (replace_answer_miss b x Hb).
Qed.

Lemma filter_replace_commute (a b : Answer.t) (l : list Answer.t) :
  Answer._id a ≠ Answer._id b →
  filter (λ ans, Answer._id ans ≠ Answer._id a) (replace_answer b <$> l)
  = replace_answer b <$> filter (λ ans, Answer._id ans ≠ Answer._id a) l.
Proof.
  intros Hne. induction l as [|x l IH]; [done|]. rewrite fmap_cons.
  destruct (decide (Answer._id x = Answer._id a)) as [Ha|Ha].
  - rewrite (replace_answer_miss b x) by congruence.
    rewrite !filter_cons_False by (intros H; by apply H). done.
  - rewrite (filter_cons_True _ x l) by done. rewrite fmap_cons, <-IH.
    apply filter_cons_True.
    destruct (decide (Answer._id x = Answer._id b)) as [Hb|Hb].
    + rewrite (replace_answer_hit b x Hb). congruence.
    + by rewrite (replace_answer_miss b x Hb).
Qed.

Lemma mergedAnswers_commute (a b : Answer.t) (ra rb : bool)
    (l : list Answer.t) :
  Answer._id a ≠ Answer._id b →
  mergedAnswers a ra (mergedAnswers b rb l)
  = mergedAnswers b rb (mergedAnswers a ra l).
Proof.
  intros Hne. unfold mergedAnswers. destruct ra, rb.
  - rewrite !list_filter_filter. apply list_filter_iff. tauto.
  - by apply filter_replace_commute.
  - symmetry. apply filter_replace_commute. congruence.
  - rewrite <-!list_fmap_compose. apply list_fmap_ext. intros i x _. simpl.
    by apply replace_replace_commute.
Qed.

(** Two answer events about answers with different identifiers can be
    delivered in either order: the page is the same, whatever their flags
    and whatever question each is addressed to. *)
Theorem answer_updates_commute (i j : string) (a b : Answer.t)
    (ra rb : bool) (p : Page) :
  Answer._id a ≠ Answer._id b →
  handleAnswerUpdate i a ra (handleAnswerUpdate j b rb p)
  = handleAnswerUpdate j b rb (handleAnswerUpdate i a ra p).
Proof.
  intros Hne. unfold handleAnswerUpdate.
  destruct (decide (i = questionID p)) as [Hi|Hi];
    destruct (decide (j = questionID p)) as [Hj|Hj]; simpl;
    rewrite ?(decide_True _ _ Hi), ?(decide_True _ _ Hj),
            ?(decide_False _ _ Hi), ?(decide_False _ _ Hj); try done.
  unfold setQuestionWith, setQuestion; simpl.
  destruct (question p) as [q|]; [|done]. simpl.
  by rewrite !with_answers_twice, (mergedAnswers_commute a b).
Qed.

Lemma answer_updates_commute_witness :
  handleAnswerUpdate "Q1" (sampleAnswer "A1" "new") false
    (handleAnswerUpdate "Q1" (sampleAnswer "A2" "gone") true seededPage)
  = handleAnswerUpdate "Q1" (sampleAnswer "A2" "gone") true
      (handleAnswerUpdate "Q1" (sampleAnswer "A1" "new") false seededPage).
Proof.
  apply (answer_updates_commute "Q1" "Q1" (sampleAnswer "A1" "new")
           (sampleAnswer "A2" "gone") false true seededPage).
  simpl. discriminate.
Defined.

(** ** Events of different kinds *)

(** Answer, vote and repaint events write different fields of the cached
    question, and the navigation is apart from the cache: any two events
    of two of these kinds give the same page in either order, whatever
    their identifiers and flags. *)
Theorem patches_of_different_kinds_commute (id : string) (answer : Answer.t)
    (removed : bool) (voteData : VoteData.t) (quest : Question.t)
    (gone : bool) (p : Page) :
  handleVoteUpdate voteData (handleQuestionRepaint quest gone p)
    = handleQuestionRepaint quest gone (handleVoteUpdate voteData p)
  ∧ handleVoteUpdate voteData (handleAnswerUpdate id answer removed p)
    = handleAnswerUpdate id answer removed (handleVoteUpdate voteData p)
  ∧ handleQuestionRepaint quest gone (handleAnswerUpdate id answer removed p)
    = handleAnswerUpdate id answer removed (handleQuestionRepaint quest gone p).
Proof.
  unfold handleVoteUpdate, handleQuestionRepaint, handleAnswerUpdate.
  destruct (decide (VoteData.qid voteData = questionID p)) as [Hv|Hv];
    destruct (decide (Question._id quest = questionID p)) as [Hq|Hq];
    destruct (decide (id = questionID p)) as [Hi|Hi];
    destruct gone; simpl;
    rewrite ?(decide_True _ _ Hv), ?(decide_True _ _ Hq),
            ?(decide_True _ _ Hi), ?(decide_False _ _ Hv),
            ?(decide_False _ _ Hq), ?(decide_False _ _ Hi);
    unfold setQuestionWith, setQuestion, navigate; simpl;
    destruct (question p); done.
Qed.

(** A view event for the active question replaces whatever the events
    before it made of the cache: after any history the cache is the
    question the view event carries. *)
Theorem view_update_overrides_history (q : Question.t) (evs : list Event)
    (p : Page) :
  Question._id q = questionID p →
  question (replay (evs ++ [viewsUpdate q]) p) = Some q.
Proof.
  intros Hid. unfold replay. rewrite foldl_snoc. simpl.
  unfold handleViewsUpdate.
  rewrite decide_True; [done|]. rewrite Hid. symmetry.
  apply replay_questionID.
Qed.

Lemma view_update_overrides_history_witness :
  question (replay ([voteUpdate overlappingVote; commentOnA1]
                    ++ [viewsUpdate (sampleQuestion "Q1" [] 5)]) seededPage)
  = Some (sampleQuestion "Q1" [] 5).
Proof.
  apply (view_update_overrides_history (sampleQuestion "Q1" [] 5)
           [voteUpdate overlappingVote; commentOnA1] seededPage).
  reflexivity.
Defined.

(** ** First render and the route parameter *)

Lemma mount_question (qid : option string) : question (mount qid) = None.
Proof.
  unfold mount, syncQuestionID, truthy.
  destruct qid as [s|]; [|done]. by case_decide.
Qed.

Lemma mount_questionID (s : string) :
  s ≠ "" → questionID (mount (Some s)) = s.
Proof.
  intros Hs. unfold mount, syncQuestionID, truthy. by rewrite decide_False.
Qed.

(** With a route parameter that is defined and not empty the page starts
    on that question and stays where it is.  A missing parameter and an
    empty one are handled alike: the active identifier is the empty string
    and the page navigates to [/home].  The cache starts empty either way. *)
Theorem mount_route_parameter (qid : option string) :
  (∀ s, qid = Some s → s ≠ "" →
     questionID (mount qid) = s ∧ navigated (mount qid) = [])
  ∧ (qid = None ∨ qid = Some "" →
     questionID (mount qid) = "" ∧ navigated (mount qid) = ["/home"])
  ∧ question (mount qid) = None.
Proof.
  unfold mount, syncQuestionID, firstRender, truthy. split_and!.
  - intros s -> Hs. by rewrite decide_False.
  - by intros [->| ->].
  - destruct qid as [s|]; [|done]. by case_decide.
Qed.

Lemma mount_route_parameter_witness :
  questionID (mount (Some "Q1")) = "Q1"
  ∧ navigated (mount (Some "")) = ["/home"].
Proof.
  destruct (mount_route_parameter (Some "Q1")) as (H1 & _ & _).
  destruct (mount_route_parameter (Some "")) as (_ & H2 & _).
  split.
  - apply (H1 "Q1" eq_refl). discriminate.
  - apply H2. right. reflexivity.
Defined.

(** Whatever events arrived since the page was mounted on a question, the
    new-answer button leads to the new-answer page of that very question,
    and pressing it leaves the cache alone. *)
Theorem new_answer_targets_route_question (s : string) (evs : list Event) :
  s ≠ "" →
  navigated (handleNewAnswer (replay evs (mount (Some s))))
    = navigated (replay evs (mount (Some s))) ++ ["/new/answer/" +:+ s]
  ∧ question (handleNewAnswer (replay evs (mount (Some s))))
    = question (replay evs (mount (Some s))).
Proof.
  intros Hs. unfold handleNewAnswer. simpl.
  by rewrite replay_questionID, (mount_questionID s Hs).
Qed.

Lemma new_answer_targets_route_question_witness :
  navigated (handleNewAnswer
               (replay [questionUpdate (sampleQuestion "Q1" [] 0) true]
                       (mount (Some "Q1"))))
  = ["/home"; "/new/answer/Q1"].
Proof.
  apply (new_answer_targets_route_question "Q1"
           [questionUpdate (sampleQuestion "Q1" [] 0) true]).
  discriminate.
Defined.

(** ** Fetching *)

Lemma fetch_seeds_or_reports_aux
    (getQuestionById : string → string → Error + option Question.t)
    (username : string) (p : Page) :
  questionID (fetchData getQuestionById username p).1 = questionID p
  ∧ question (fetchData getQuestionById username p).1
    = match getQuestionById (questionID p) username with
      | inr res => res
      | inl _ => question p
      end.
Proof.
  unfold fetchData, try_catch, mbind, Async_bind, await.
  by destruct (getQuestionById (questionID p) username) as [err|res].
Qed.

(** [fetchData] always resolves and touches neither the active identifier
    nor the navigation nor the comment requests.  When the service
    resolves, the cache becomes what it resolved with, null when it
    resolved with nothing, and the console is left alone; when the service
    rejects, the cache stays as it was and the error is reported on the
    console. *)
Theorem fetch_seeds_or_reports
    (getQuestionById : string → string → Error + option Question.t)
    (username : string) (p : Page) :
  let r := fetchData getQuestionById username p in
  r.2 = inr ()
  ∧ questionID r.1 = questionID p
  ∧ navigated r.1 = navigated p
  ∧ requests r.1 = requests p
  ∧ match getQuestionById (questionID p) username with
    | inr res => question r.1 = res ∧ console r.1 = console p
    | inl err =>
        question r.1 = question p
        ∧ console r.1 = console p ++ [("Error fetching question:", err)]
    end.
Proof.
  unfold fetchData, try_catch, mbind, Async_bind, await.
  by destruct (getQuestionById (questionID p) username) as [err|res].
Qed.

(** From the first render on, through the fetch and any events after it,
    the cached question is the active one, provided the service answers a
    request with the question that was asked for. *)
Theorem session_cache_consistent (qid : option string)
    (getQuestionById : string → string → Error + option Question.t)
    (username : string) (evs : list Event) :
  (∀ id q, getQuestionById id username = inr (Some q) → Question._id q = id) →
  cache_consistent
    (replay evs (fetchData getQuestionById username (mount qid)).1).
Proof.
  intros Hservice.
  induction evs as [|ev evs IH] using rev_ind;
    [|by apply replay_consistent_snoc].
  pose proof (fetch_seeds_or_reports_aux getQuestionById username (mount qid))
    as (Hid & Hcache).
  intros q Hq. simpl in Hq. rewrite Hcache in Hq. simpl. rewrite Hid.
  destruct (getQuestionById (questionID (mount qid)) username)
    as [err|res] eqn:Hres.
  - by rewrite mount_question in Hq.
  - subst res. apply Hservice. by rewrite Hres, Hq.
Qed.

Lemma session_cache_consistent_witness :
  cache_consistent
    (replay [voteUpdate cleanVote; viewsUpdate (sampleQuestion "Q2" [] 1)]
       (fetchData (λ id _, inr (Some (sampleQuestion id [] 0))) "ann"
          (mount (Some "Q1"))).1).
Proof.
  apply (session_cache_consistent (Some "Q1")
           (λ id _, inr (Some (sampleQuestion id [] 0))) "ann"
           [voteUpdate cleanVote; viewsUpdate (sampleQuestion "Q2" [] 1)]).
  intros id q [= <-]. reflexivity.
Defined.

(** ** Marking an answer as correct *)

(** [handleAnswerCorrect] always resolves, whatever the service does.  With
    a route parameter that is missing or empty the service is not called:
    the page is the old one with one line on the console.  Otherwise the
    page is the one the service leaves, with one more console line exactly
    when the service rejected. *)
Theorem answer_correct_absorbs_errors (qid : option string)
    (updateAnswerCorrect : string → Answer.t → Async unit)
    (ans : Answer.t) (p : Page) :
  let r := handleAnswerCorrect qid updateAnswerCorrect ans p in
  r.2 = inr ()
  ∧ (qid = None ∨ qid = Some "" →
     r.1 = mkPage (questionID p) (question p) (navigated p) (requests p)
             (console p ++ [("Error marking answer as correct:",
                             mkError "Question ID is undefined.")]))
  ∧ (∀ s, qid = Some s → s ≠ "" →
     match updateAnswerCorrect s ans p with
     | (p', inr _) => r.1 = p'
     | (p', inl err) =>
         r.1 = mkPage (questionID p') (question p') (navigated p')
                 (requests p')
                 (console p' ++ [("Error marking answer as correct:", err)])
     end).
Proof.
  unfold handleAnswerCorrect, try_catch, truthy. split_and!.
  - destruct qid as [s|]; [|done]. case_decide; [done|].
    unfold mbind, Async_bind, await.
    by destruct (updateAnswerCorrect s ans p) as [p' [err|[]]].
  - by intros [->| ->].
  - intros s -> Hs. rewrite decide_False by done.
    unfold mbind, Async_bind, await.
    by destruct (updateAnswerCorrect s ans p) as [p' [err|[]]].
Qed.

(** ** The class of the question body *)

(** The class name always starts with the two base classes and lists the
    class [pinned] exactly when the question is pinned and the class
    [locked] exactly when it is locked; so the class name tells both
    flags. *)
Theorem class_name_tells_flags (pinned locked : bool) :
  String.prefix "questionBody right_padding"
                (questionClassName pinned locked) = true
  ∧ includes " pinned" (questionClassName pinned locked) = pinned
  ∧ includes " locked" (questionClassName pinned locked) = locked
  ∧ ∀ pinned' locked',
      questionClassName pinned locked = questionClassName pinned' locked' →
      pinned = pinned' ∧ locked = locked'.
Proof.
  split_and!; [by destruct pinned, locked..|].
  intros pinned' locked'.
  destruct pinned, locked, pinned', locked'; simpl; intros H;
    by (split; reflexivity) || discriminate H.
Qed.

(** ** The login form *)

(** Typing into a field that is none of [username], [email] and [password]
    changes nothing, and typing into any field leaves the error message,
    the user, the navigation and the requests as they are. *)
Theorem input_change_frame (name value : string) (s : Login.t) :
  (name ≠ "username" → name ≠ "email" → name ≠ "password" →
     handleInputChange name value s = s)
  ∧ Login.error (handleInputChange name value s) = Login.error s
  ∧ Login.user (handleInputChange name value s) = Login.user s
  ∧ Login.navigated (handleInputChange name value s) = Login.navigated s
  ∧ Login.sent (handleInputChange name value s) = Login.sent s.
Proof.
  unfold handleInputChange. split_and!.
  - intros H1 H2 H3. by rewrite !decide_False.
  - by repeat case_decide.
  - by repeat case_decide.
  - by repeat case_decide.
  - by repeat case_decide.
Qed.

Lemma input_change_frame_witness :
  handleInputChange "remember" "yes"
    (Login.mk "ann" "" "pw" None None [] [])
  = Login.mk "ann" "" "pw" None None [] [].
Proof.
  apply (input_change_frame "remember" "yes"
           (Login.mk "ann" "" "pw" None None [] []));
    discriminate.
Defined.

(** Submitting sends exactly one request, to [/login] or to
    [/createAccount], carrying the user name and the password typed last
    and never the email. *)
Theorem typed_credentials_are_sent
    (fetch : string → Credentials.t → Error + Response.t) (isLogin : bool)
    (u e pw : string) (s : Login.t) :
  Login.sent
    (handleSubmit fetch isLogin
       (handleInputChange "password" pw
          (handleInputChange "email" e
             (handleInputChange "username" u s))))
  = Login.sent s
    ++ [(if isLogin then "/login" else "/createAccount", Credentials.mk u pw)].
Proof.
  unfold handleSubmit. simpl.
  by destruct (fetch _ _) as [err|response]; [|destruct (readResponse _)].
Qed.

(** After a submit the form shows an error or the user is logged in and
    sent to [/home], never both: with an error shown, the user and the
    navigation are as before; without one, a user is set and [/home] is
    the last navigation.  The three fields are left as typed, and an
    error shown before the submit does not survive a successful one. *)
Theorem submit_outcome
    (fetch : string → Credentials.t → Error + Response.t) (isLogin : bool)
    (s : Login.t) :
  let s' := handleSubmit fetch isLogin s in
  Login.username s' = Login.username s
  ∧ Login.email s' = Login.email s
  ∧ Login.password s' = Login.password s
  ∧ ((Login.error s' = None
      ∧ (∃ name, Login.user s' = Some name)
      ∧ Login.navigated s' = Login.navigated s ++ ["/home"])
     ∨ ((∃ message, Login.error s' = Some message)
        ∧ Login.user s' = Login.user s
        ∧ Login.navigated s' = Login.navigated s)).
Proof.
  unfold handleSubmit. simpl.
  destruct (fetch _ _) as [err|response]; simpl.
  - split_and!; try done. right. eauto.
  - destruct (readResponse response) as [err|name]; simpl.
    + split_and!; try done. right. eauto.
    + split_and!; try done. left. eauto.
Qed.

(** A response that is not ok never logs the user in, whatever its body.
    Its error message is the fixed one when the content type mentions
    [text/html], even when the body cannot be read; without a content type
    header it is the text of the body. *)
Theorem refused_submit
    (fetch : string → Credentials.t → Error + Response.t) (isLogin : bool)
    (s : Login.t) (response : Response.t) :
  fetch (if isLogin then "/login" else "/createAccount")
        (Credentials.mk (Login.username s) (Login.password s))
    = inr response →
  Response.ok response = false →
  let s' := handleSubmit fetch isLogin s in
  Login.user s' = Login.user s
  ∧ Login.navigated s' = Login.navigated s
  ∧ (∃ message, Login.error s' = Some message)
  ∧ (∀ contentType, Response.contentType response = Some contentType →
       includes "text/html" contentType = true →
       Login.error s' = Some "Cannot POST to the specified route.")
  ∧ (∀ body, Response.contentType response = None →
       Response.text response = inr body →
       Login.error s' = Some body).
Proof.
  intros Hfetch Hok. unfold handleSubmit. simpl. rewrite Hfetch.
  unfold readResponse. rewrite Hok. simpl.
  split_and!.
  - by destruct (Response.contentType response) as [ct|];
      [destruct (includes _ ct)|]; destruct (Response.text response).
  - by destruct (Response.contentType response) as [ct|];
      [destruct (includes _ ct)|]; destruct (Response.text response).
  - destruct (Response.contentType response) as [ct|];
      [destruct (includes _ ct)|]; destruct (Response.text response);
      simpl; eauto.
  - intros ct -> ->. done.
  - intros body -> ->. done.
Qed.

Lemma refused_submit_witness :
  Login.error
    (handleSubmit
       (λ _ _, inr (Response.mk false (Some "text/html; charset=utf-8")
                      (inl (mkError "stream closed")) (inr "ann")))
       true (Login.mk "ann" "" "pw" (Some "old") None [] []))
  = Some "Cannot POST to the specified route.".
Proof.
  destruct (refused_submit
              (λ _ _, inr (Response.mk false (Some "text/html; charset=utf-8")
                             (inl (mkError "stream closed")) (inr "ann")))
              true (Login.mk "ann" "" "pw" (Some "old") None [] [])
              (Response.mk false (Some "text/html; charset=utf-8")
                 (inl (mkError "stream closed")) (inr "ann"))
              eq_refl eq_refl) as (_ & _ & _ & Hhtml & _).
  apply (Hhtml "text/html; charset=utf-8"); reflexivity.
Defined.

(** ** Comment events and the other merges *)

(** A comment event is merged by the code of another kind: tagged question
    it does what the view event carrying the same question does, and
    tagged answer it does what an answer event without the removal flag
    does when addressed to the active question. *)
Theorem comment_update_as_other_kinds (p : Page) :
  (∀ q, handleCommentUpdate (QuestionResult q) p = handleViewsUpdate q p)
  ∧ (∀ a, handleCommentUpdate (AnswerResult a) p
          = handleAnswerUpdate (questionID p) a false p).
Proof.
  split.
  - done.
  - intros a. unfold handleAnswerUpdate, mergedAnswers.
    by rewrite decide_True.
Qed.

Example includes_html :
  includes "text/html" "text/html; charset=utf-8" = true
  ∧ includes "text/html" "application/json" = false
  ∧ includes "text/html" "" = false.
Proof. by split_and!. Qed.
